(** * QOption: a shallow embedding of [src/qoption.h]

    [QOption<Type>] is an object with two data members: the flag [available]
    and the raw storage [value], which the member functions reach through
    [__ptr_v()].  Objects are mutated in place and are passed by reference
    ([QOption &], [QOption &&]), and an assignment may name the same object on
    both sides, so the embedding keeps a store of objects indexed by address
    and every member function takes the address [this] (and [o]) it works on.

    Modelling choices, all of them visible in the definitions below:
    - the store gives every object a storage cell of its own that holds one
      [Type], the content of a fresh object being whatever the store holds at
      its address.  This is the view of one container at a time: the
      statements of this part are about one container, or about the flags of
      two.  In the class the cell is the member [value], one byte long (line
      35 names [std::aligned_storage<...>] without [::type]), so what is
      reached through [__ptr_v()] runs past the object; [Module Layout] at the
      end has the constructor from a [Type &&] and [unwrap] on bytes, where that
      shows.  The assignment [value = o.value] of the empty member is
      [copy_storage];
    - [std::move(x)] used to build or assign a [Type] yields the value of [x]
      and leaves [moved_from x] behind, [moved_from] being a parameter of the
      model ([Type]'s own move operations);
    - [Type]'s [operator==] is the parameter [Type_eq];
    - caller-supplied callables are total functions of their argument, and
      they reach the container only through the reference they are handed: a
      callable that receives a [Type &] is a function from the value it finds
      to the value it leaves;
    - a thrown exception is a value carrying the name of the exception type
      and the message; leaving a [noexcept] function by an exception ends the
      program;
    - besides the store, the machine carries a trace: every access to a
      storage (with the flag of the object at that moment) and every call of a
      callable is appended to it.  The trace is only observed by theorems. *)

From Stdlib Require Import List String Bool Arith ZArith Lia.
Import ListNotations.

Set Implicit Arguments.

(** Addresses of [QOption] objects. *)
Definition loc := nat.

(** What [throw E(text)] throws: the exception type [E] and [text]. *)
Record exception : Type := Exception { exception_type : string; what : string }.

(** The default of [template <typename E = std::logic_error>]. *)
Definition default_E : string := "std::logic_error"%string.

(** How a call ends: it returns, it throws, or the program is terminated. *)
Inductive outcome (A : Type) : Type :=
| Returned (a : A)
| Thrown (e : exception)
| Terminated.

Arguments Thrown {A} e.
Arguments Terminated {A}.

Section Model.

Variable Type_ : Type.
Variable moved_from : Type_ -> Type_.
Variable Type_eq : Type_ -> Type_ -> bool.

(** The two data members of the class. *)
Record QOption : Type := mkQOption { available : bool; value : Type_ }.

Inductive event : Type :=
| StorageRead (l : loc) (flag : bool)
| StorageWrite (l : loc) (flag : bool)
| InvokeSome (v : Type_)
| InvokeNone.

Record machine : Type := mkMachine { heap : loc -> QOption; trace : list event }.

Definition M (A : Type) : Type := machine -> outcome A * machine.

Definition ret {A : Type} (a : A) : M A := fun m => (Returned a, m).

Definition bind {A B : Type} (c : M A) (k : A -> M B) : M B :=
  fun m =>
    match c m with
    | (Returned a, m') => k a m'
    | (Thrown e, m') => (Thrown e, m')
    | (Terminated, m') => (Terminated, m')
    end.

Definition throw {A : Type} (e : exception) : M A := fun m => (Thrown e, m).

(** A function declared [noexcept]: an exception that would leave it calls
    [std::terminate]. *)
Definition noexcept {A : Type} (c : M A) : M A :=
  fun m =>
    match c m with
    | (Thrown _, m') => (Terminated, m')
    | r => r
    end.

Notation "x <- c ;; k" := (bind c (fun x => k))
  (at level 61, c at next level, right associativity).
Notation "c ;; k" := (bind c (fun _ => k))
  (at level 61, right associativity).

(** ** The store *)

Definition upd (h : loc -> QOption) (l : loc) (q : QOption) : loc -> QOption :=
  fun l' => if Nat.eqb l' l then q else h l'.

Definition emit (e : event) : M unit :=
  fun m => (Returned tt, mkMachine (heap m) (trace m ++ [e])).

Definition get_available (l : loc) : M bool :=
  fun m => (Returned (available (heap m l)), m).

(** [available = b;] on the object at [l]. *)
Definition set_available (l : loc) (b : bool) : M unit :=
  fun m =>
    (Returned tt,
     mkMachine (upd (heap m) l (mkQOption b (value (heap m l)))) (trace m)).

Definition get_value (l : loc) : M Type_ :=
  fun m => (Returned (value (heap m l)), m).

Definition set_value (l : loc) (v : Type_) : M unit :=
  fun m =>
    (Returned tt,
     mkMachine (upd (heap m) l (mkQOption (available (heap m l)) v)) (trace m)).

Definition read_event (l : loc) : M unit :=
  fun m => emit (StorageRead l (available (heap m l))) m.

Definition write_event (l : loc) : M unit :=
  fun m => emit (StorageWrite l (available (heap m l))) m.

(** Reading [*__ptr_v()]. *)
Definition deref (l : loc) : M Type_ :=
  read_event l ;; get_value l.

(** [*__ptr_v() = v;] *)
Definition assign_ptr (l : loc) (v : Type_) : M unit :=
  write_event l ;; set_value l v.

(** A [Type] built from [std::move( *__ptr_v())]: the value goes to the new
    object and the storage keeps what the move leaves. *)
Definition move_ptr (l : loc) : M Type_ :=
  v <- deref l ;;
  set_value l (moved_from v) ;;
  ret v.

(** [value = o.value;] on the objects at [l] and [o].  The member [value] has
    the type [value_storage], and line 35 makes that
    [std::aligned_storage<sizeof (Type), alignof(Type)>] itself, not its
    nested [type]: an empty class.  Assigning it transfers nothing and touches
    the storage of no [Type]. *)
Definition copy_storage (l o : loc) : M unit :=
  ret tt.

(** ** Callables *)

Definition invoke_none {R : Type} (fn : unit -> R) : M R :=
  emit InvokeNone ;; ret (fn tt).

Definition invoke_some {R : Type} (fn : Type_ -> R) (v : Type_) : M R :=
  emit (InvokeSome v) ;; ret (fn v).

(** [fn( *__ptr_v())]: the callable gets a reference to the storage; [fn v] is
    what it leaves there when it found [v]. *)
Definition invoke_ref (fn : Type_ -> Type_) (l : loc) : M unit :=
  v <- deref l ;;
  v' <- invoke_some fn v ;;
  set_value l v'.

(** ** Member functions *)

(** [bool isNone() const { return !available; }] *)
Definition isNone (this : loc) : M bool :=
  b <- get_available this ;; ret (negb b).

(** [bool isSome() const { return available; }] *)
Definition isSome (this : loc) : M bool :=
  get_available this.

(** [template<typename E> Type unwrap()] *)
Definition unwrap (E : string) (this : loc) : M Type_ :=
  n <- isNone this ;;
  if n then throw (Exception E "Option is None value")
  else
    set_available this false ;;
    move_ptr this.

(** [template<typename E> Type expect(const char * text)] *)
Definition expect (E : string) (this : loc) (text : string) : M Type_ :=
  n <- isNone this ;;
  if n then throw (Exception E text)
  else
    set_available this false ;;
    move_ptr this.

(** [Type unwrap_or(none_callable && none_fn)] *)
Definition unwrap_or (this : loc) (none_fn : unit -> Type_) : M Type_ :=
  n <- isNone this ;;
  (if n then v <- invoke_none none_fn ;; assign_ptr this v else ret tt) ;;
  set_available this false ;;
  move_ptr this.

(** [Res match(some_callable && some_fn, none_callable && none_fn)]; the
    argument of [some_fn] is a [Type] taken by value, as the comment above the
    function asks. *)
Definition match_ {Res : Type} (this : loc)
    (some_fn : Type_ -> Res) (none_fn : unit -> Res) : M Res :=
  n <- isNone this ;;
  if n then invoke_none none_fn
  else
    set_available this false ;;
    v <- move_ptr this ;;
    invoke_some some_fn v.

(** [Type unwrap_def(const Type & def_value)] *)
Definition unwrap_def (this : loc) (def_value : Type_) : M Type_ :=
  n <- isNone this ;;
  (if n then assign_ptr this def_value else ret tt) ;;
  set_available this false ;;
  move_ptr this.

(** [Type unwrap_def(Type && def_value)]; the result is paired with what is
    left in the caller's [def_value]. *)
Definition unwrap_def_move (this : loc) (def_value : Type_) : M (Type_ * Type_) :=
  n <- isNone this ;;
  left <- (if n then assign_ptr this def_value ;; ret (moved_from def_value)
           else ret def_value) ;;
  set_available this false ;;
  v <- move_ptr this ;;
  ret (v, left).

(** [QOption & if_some(some_callable && fn)] *)
Definition if_some (this : loc) (fn : Type_ -> Type_) : M loc :=
  s <- isSome this ;;
  (if s then invoke_ref fn this else ret tt) ;;
  ret this.

(** [QOption & if_none(none_callable && fn)] *)
Definition if_none (this : loc) (fn : unit -> unit) : M loc :=
  n <- isNone this ;;
  (if n then invoke_none fn else ret tt) ;;
  ret this.

(** [bool operator==(const QOption & o)], with the short circuits of [&&] and
    [||]: what the body computes.  The body calls [o.__ptr_v()], a member that
    is not [const], on the [const] parameter, so a conforming compiler refuses
    the function once it is instantiated; no statement below is made about
    comparisons in a program, only that the body, like every other, has no
    [throw] of its own. *)
Definition operator_eq (this o : loc) : M bool :=
  a <- isSome this ;;
  b <- isSome o ;;
  if Bool.eqb a b then
    s <- isSome this ;;
    if s then
      x <- deref this ;;
      y <- deref o ;;
      if Type_eq x y then ret true else isNone this
    else isNone this
  else ret false.

(** ** Constructors and assignments

    A constructor runs on the object at [this]; [bool available {false};]
    initialises the flag before the body of every constructor that has no
    initialiser for it, and the storage is left as it is found. *)

(** [QOption() noexcept : available(false) {}] *)
Definition QOption_default (this : loc) : M unit :=
  noexcept (set_available this false).

(** [QOption(const Type & t) noexcept] *)
Definition QOption_copy_value (this : loc) (t : Type_) : M unit :=
  noexcept (
    set_available this false ;;
    assign_ptr this t ;;
    set_available this true).

(** [QOption(Type && t) noexcept]: [std::swap( *__ptr_v(), t)] is
    [Type tmp(std::move(a)); a = std::move(b); b = std::move(tmp);].
    The result is what the caller's [t] holds afterwards.  Here the argument
    is a value apart from the storage; [Layout.QOption_move_value] below has
    the same statements on addresses, where the two can overlap. *)
Definition QOption_move_value (this : loc) (t : Type_) : M Type_ :=
  noexcept (
    set_available this false ;;
    tmp <- move_ptr this ;;
    assign_ptr this t ;;
    set_available this true ;;
    ret tmp).

(** [QOption(QOption && o) noexcept] *)
Definition QOption_move (this o : loc) : M unit :=
  noexcept (
    set_available this false ;;
    s <- isSome o ;;
    if s then
      v <- unwrap default_E o ;;
      assign_ptr this v ;;
      set_available this true
    else set_available this false).

(** [QOption(QOption & o) noexcept] *)
Definition QOption_ref (this o : loc) : M unit :=
  noexcept (
    set_available this false ;;
    s <- isSome o ;;
    if s then
      v <- unwrap default_E o ;;
      assign_ptr this v ;;
      set_available this true
    else set_available this false).

(** [QOption & operator=(QOption && o) noexcept] *)
Definition assign_move (this o : loc) : M loc :=
  noexcept (
    s <- isSome o ;;
    (if s then
       v <- unwrap default_E o ;;
       assign_ptr this v ;;
       set_available this true
     else set_available this false) ;;
    ret this).

(** [QOption & operator=(QOption & o) noexcept] *)
Definition assign_ref (this o : loc) : M loc :=
  noexcept (
    s <- isSome o ;;
    (if s then
       set_available o false ;;
       copy_storage this o ;;
       set_available this true
     else set_available this false) ;;
    ret this).

(** [static QOption None()]; the returned object is built at [this]. *)
Definition QNone (this : loc) : M unit :=
  QOption_default this.

(** [static QOption Some(const Type & val)] *)
Definition QSome (this : loc) (val : Type_) : M unit :=
  QOption_copy_value this val.

(** [static QOption Some(Type && val)] *)
Definition QSome_move (this : loc) (val : Type_) : M Type_ :=
  QOption_move_value this val.

(** ** States of a container *)

(** The object at [l] is in the state the spec calls Occupied, holding [v]. *)
Definition Occupied (m : machine) (l : loc) (v : Type_) : Prop :=
  heap m l = mkQOption true v.

(** The object at [l] is in the state the spec calls Empty. *)
Definition Empty (m : machine) (l : loc) : Prop :=
  available (heap m l) = false.

(** The calls of callables recorded in a trace, in order. *)
Definition is_invocation (e : event) : bool :=
  match e with
  | InvokeSome _ | InvokeNone => true
  | StorageRead _ _ | StorageWrite _ _ => false
  end.

Definition invocations (tr : list event) : list event :=
  filter is_invocation tr.

(** A chain [c.if_some(f).if_none(g)...]: every call is made on the reference
    the previous one returned. *)
Inductive combinator : Type :=
| IfSome (fn : Type_ -> Type_)
| IfNone (fn : unit -> unit).

Fixpoint chain (this : loc) (cs : list combinator) : M loc :=
  match cs with
  | [] => ret this
  | IfSome fn :: cs' => r <- if_some this fn ;; chain r cs'
  | IfNone fn :: cs' => r <- if_none this fn ;; chain r cs'
  end.

(** What the callables of a chain leave in the value they are handed. *)
Fixpoint apply_refs (cs : list combinator) (v : Type_) : Type_ :=
  match cs with
  | [] => v
  | IfSome fn :: cs' => apply_refs cs' (fn v)
  | IfNone _ :: cs' => apply_refs cs' v
  end.

(** The calls a chain makes on a container that holds [v]. *)
Fixpoint some_calls (cs : list combinator) (v : Type_) : list event :=
  match cs with
  | [] => []
  | IfSome fn :: cs' => InvokeSome v :: some_calls cs' (fn v)
  | IfNone _ :: cs' => some_calls cs' v
  end.

(** The calls a chain makes on an Empty container. *)
Fixpoint none_calls (cs : list combinator) : list event :=
  match cs with
  | [] => []
  | IfSome _ :: cs' => none_calls cs'
  | IfNone _ :: cs' => InvokeNone :: none_calls cs'
  end.

(** Every callable of the chain that gets the reference leaves the value as it
    found it. *)
Fixpoint read_only (cs : list combinator) : Prop :=
  match cs with
  | [] => True
  | IfSome fn :: cs' => (forall x, fn x = x) /\ read_only cs'
  | IfNone _ :: cs' => read_only cs'
  end.




(** The events an operation adds when it is run on the store [h]. *)
Definition events_of {A : Type} (c : M A) (h : loc -> QOption) : list event :=
  trace (snd (c (mkMachine h []))).

Definition entry_flags (h : loc -> QOption) : loc -> bool :=
  fun l => available (h l).



(** An operation that returns normally from every state. *)
Definition total {A : Type} (c : M A) : Prop :=
  forall m, exists r m', c m = (Returned r, m').

(** ** Symbolic execution *)

Lemma upd_same (h : loc -> QOption) (l : loc) (q : QOption) : upd h l q l = q.
Proof. unfold upd. now rewrite Nat.eqb_refl. Qed.

Lemma upd_other (h : loc -> QOption) (l l' : loc) (q : QOption) :
  l' <> l -> upd h l q l' = h l'.
Proof.
  intros Hne. unfold upd.
  destruct (Nat.eqb l' l) eqn:Heq; [ apply Nat.eqb_eq in Heq; contradiction | reflexivity ].
Qed.

Ltac unfold_ops :=
  cbv beta iota zeta delta
    [ret bind throw noexcept emit get_available set_available get_value
     set_value read_event write_event deref assign_ptr move_ptr copy_storage
     invoke_none invoke_some invoke_ref isNone isSome unwrap expect unwrap_or
     match_ unwrap_def unwrap_def_move if_some if_none operator_eq
     QOption_default QOption_copy_value QOption_move_value QOption_move
     QOption_ref assign_move assign_ref QNone QSome QSome_move
     Occupied Empty events_of entry_flags].

Ltac simpl_upd :=
  repeat (rewrite upd_same || (rewrite upd_other by (assumption || congruence))).

Ltac use_flags :=
  repeat match goal with
         | H : ?h ?l = mkQOption _ _ |- context [?h ?l] => rewrite H
         end.

Ltac step :=
  repeat (progress (unfold_ops; cbn [heap trace available value negb fst snd Bool.eqb];
                    simpl_upd; use_flags)).

Ltac case_flag h l :=
  let a := fresh "a" in
  let v := fresh "v" in
  let H := fresh "Hq" in
  destruct (h l) as [a v] eqn:H; destruct a.

Ltac same_or_not l l' :=
  let H := fresh "Hne" in
  destruct (Nat.eq_dec l l') as [-> | H];
  [ | assert (l' <> l) by congruence ].

(** C2. The code against the claim: [operator=(QOption &)] from an Occupied
    source that is another object does not hand the value over.
    [value = o.value] assigns an empty object, so the assignment only clears
    the flag of the source and sets the flag of the destination: the
    destination becomes Occupied with whatever its own storage held, and no
    storage is read or written. *)
Theorem copy_assignment_transfers_no_value (m : machine) (this o : loc) (v : Type_) :
  this <> o ->
  Occupied m o v ->
  exists m',
    assign_ref this o m = (Returned this, m') /\
    Occupied m' this (value (heap m this)) /\
    Empty m' o /\
    trace m' = trace m.
Proof.
  intros Hne Hocc. assert (Hne' : o <> this) by congruence.
  destruct m as [h tr]. unfold Occupied in Hocc. cbn [heap] in Hocc.
  eexists. split; [ step; reflexivity | ].
  split; [ | split ]; step; reflexivity.
Qed.

(** C9. Assigning a container to itself with [operator=(QOption &)] leaves it
    as it was: Occupied with the same value, or Empty; no object of the store
    changes. *)
Theorem self_assignment_keeps_container (m : machine) (this : loc) :
  exists m',
    assign_ref this this m = (Returned this, m') /\
    (forall l, heap m' l = heap m l) /\
    (forall v, Occupied m this v -> Occupied m' this v) /\
    (Empty m this -> Empty m' this).
Proof.
  destruct m as [h tr].
  assert (Hall : exists m', assign_ref this this (mkMachine h tr) = (Returned this, m') /\
                            forall l, heap m' l = h l).
  { case_flag h this; eexists; (split; [ step; reflexivity | ]);
      intros l; cbn [heap]; (same_or_not l this; [ simpl_upd; congruence | simpl_upd; reflexivity ]). }
  destruct Hall as [m' [Hrun Hsame]].
  exists m'. split; [ exact Hrun | ]. split; [ exact Hsame | ].
  unfold Occupied, Empty. cbn [heap]. rewrite (Hsame this). auto.
Qed.

(** C10. Move-assigning or copy-assigning from an Empty source leaves both the
    destination and the source Empty, whatever the destination held; the
    assignment reads no storage and calls nothing (its trace is unchanged),
    the storage of the destination is left as it was, and a following
    [unwrap()] on the destination throws instead of yielding the old value. *)
Theorem assign_from_Empty_discards (m : machine) (this o : loc) (E : string) :
  Empty m o ->
  (exists m',
      assign_move this o m = (Returned this, m') /\
      Empty m' this /\ Empty m' o /\ trace m' = trace m /\
      value (heap m' this) = value (heap m this) /\
      unwrap E this m' = (Thrown (Exception E "Option is None value"), m')) /\
  (exists m',
      assign_ref this o m = (Returned this, m') /\
      Empty m' this /\ Empty m' o /\ trace m' = trace m /\
      value (heap m' this) = value (heap m this) /\
      unwrap E this m' = (Thrown (Exception E "Option is None value"), m')).
Proof.
  unfold Empty. intros Ho. destruct m as [h tr]. cbn [heap] in Ho.
  destruct (h o) as [a v] eqn:Hq. cbn [available] in Ho. subst a.
  split; eexists; (split; [ step; reflexivity | ]); cbn [heap trace]; simpl_upd.
  all: repeat split; try reflexivity.
  all: try (same_or_not o this; simpl_upd; try rewrite Hq; reflexivity).
  all: step; reflexivity.
Qed.

Lemma invocations_app (tr tr' : list event) :
  invocations (tr ++ tr') = invocations tr ++ invocations tr'.
Proof. apply filter_app. Qed.

Ltac calls :=
  rewrite ?invocations_app; cbn [invocations filter is_invocation];
  rewrite ?app_nil_r; try reflexivity.

(** C3. [match(some_fn, none_fn)] calls exactly one of the two callables,
    exactly once, and returns its result: on an Empty container it returns
    [none_fn()] and leaves the store as it is; on an Occupied one it empties
    the container and returns [some_fn(value)]. *)
Theorem match_runs_exactly_one_branch (Res : Type) (m : machine) (this : loc)
    (some_fn : Type_ -> Res) (none_fn : unit -> Res) :
  exists r m',
    match_ this some_fn none_fn m = (Returned r, m') /\
    Empty m' this /\
    if available (heap m this)
    then r = some_fn (value (heap m this)) /\
         invocations (trace m') =
           invocations (trace m) ++ [InvokeSome (value (heap m this))]
    else r = none_fn tt /\
         invocations (trace m') = invocations (trace m) ++ [InvokeNone] /\
         heap m' = heap m.
Proof.
  destruct m as [h tr]. cbn [heap trace].
  case_flag h this; do 2 eexists; (split; [ step; reflexivity | ]);
    step; repeat split; calls.
Qed.

(** C4. [unwrap_or(none_fn)] calls [none_fn] exactly once and returns its
    result when the container was Empty, and calls nothing and returns the
    contained value when it was Occupied; [unwrap_def] (both overloads) does
    the same with the supplied value; in every case the container ends
    Empty. *)
Theorem unwrap_or_substitutes_only_when_Empty (m : machine) (this : loc)
    (none_fn : unit -> Type_) (def_value : Type_) :
  (exists r m',
      unwrap_or this none_fn m = (Returned r, m') /\
      Empty m' this /\
      if available (heap m this)
      then r = value (heap m this) /\
           invocations (trace m') = invocations (trace m)
      else r = none_fn tt /\
           invocations (trace m') = invocations (trace m) ++ [InvokeNone]) /\
  (exists r m',
      unwrap_def this def_value m = (Returned r, m') /\
      Empty m' this /\
      invocations (trace m') = invocations (trace m) /\
      r = if available (heap m this) then value (heap m this) else def_value) /\
  (exists r left m',
      unwrap_def_move this def_value m = (Returned (r, left), m') /\
      Empty m' this /\
      invocations (trace m') = invocations (trace m) /\
      r = if available (heap m this) then value (heap m this) else def_value).
Proof.
  destruct m as [h tr]. cbn [heap trace].
  repeat split.
  - case_flag h this; do 2 eexists; (split; [ step; reflexivity | ]);
      step; repeat split; calls.
  - case_flag h this; do 2 eexists; (split; [ step; reflexivity | ]);
      step; repeat split; calls.
  - case_flag h this; do 3 eexists; (split; [ step; reflexivity | ]);
      step; repeat split; calls.
Qed.

(** What [operator==] computes, and that it changes no object and calls
    nothing. *)
Lemma operator_eq_run (m : machine) (this o : loc) :
  exists b tr',
    operator_eq this o m = (Returned b, mkMachine (heap m) tr') /\
    invocations tr' = invocations (trace m) /\
    (b = true <->
     (Empty m this /\ Empty m o) \/
     (exists v w, Occupied m this v /\ Occupied m o w /\ Type_eq v w = true)).
Proof.
  destruct m as [h tr]. unfold Empty, Occupied. cbn [heap trace].
  case_flag h this; case_flag h o; cbn [available].
  - destruct (Type_eq v v0) eqn:Heq; do 2 eexists;
      (split; [ step; rewrite Heq; step; reflexivity | ]);
      (split; [ calls | ]).
    + split; [ intros _; right; eauto | reflexivity ].
    + split; [ discriminate | ].
      intros [[Hf _] | [x [y [Hx [Hy Hxy]]]]]; [ discriminate | ].
      congruence.
  - do 2 eexists. split; [ step; reflexivity | ]. split; [ calls | ].
    split; [ discriminate | ].
    intros [[Hf _] | [x [y [_ [Hy _]]]]]; discriminate.
  - do 2 eexists. split; [ step; reflexivity | ]. split; [ calls | ].
    split; [ discriminate | ].
    intros [[_ Hf] | [x [y [Hx _]]]]; discriminate.
  - do 2 eexists. split; [ step; reflexivity | ]. split; [ calls | ].
    split; [ intros _; left; split; reflexivity | reflexivity ].
Qed.

Lemma operator_eq_total (this o : loc) : total (operator_eq this o).
Proof.
  intros m. destruct (operator_eq_run m this o) as [b [tr' [Hrun _]]]. eauto.
Qed.

Lemma transfers_total (this o : loc) :
  total (QOption_move this o) /\ total (QOption_ref this o) /\
  total (assign_move this o) /\ total (assign_ref this o).
Proof.
  repeat split; intros [h tr].
  all: same_or_not o this;
    [ case_flag h this | case_flag h o ]; do 2 eexists; step; reflexivity.
Qed.

(** C5. Only [unwrap] and [expect] throw, and they throw exactly when the
    container is Empty: the exception has the type the caller chose
    ([std::logic_error] by default) and carries the fixed message, or the
    caller's text for [expect]; the throwing call changes nothing, so a
    repeated call throws again and no value is made up.  On an Occupied
    container both return the value.  Every other operation returns normally
    from every state. *)
Theorem only_unwrap_and_expect_throw (this o : loc) :
  (forall m E,
      (Empty m this ->
       unwrap E this m = (Thrown (Exception E "Option is None value"), m)) /\
      (forall v, Occupied m this v ->
                 exists m', unwrap E this m = (Returned v, m'))) /\
  (forall m E text,
      (Empty m this -> expect E this text m = (Thrown (Exception E text), m)) /\
      (forall v, Occupied m this v ->
                 exists m', expect E this text m = (Returned v, m'))) /\
  (forall none_fn, total (unwrap_or this none_fn)) /\
  (forall def_value, total (unwrap_def this def_value)) /\
  (forall def_value, total (unwrap_def_move this def_value)) /\
  (forall Res (some_fn : Type_ -> Res) none_fn, total (match_ this some_fn none_fn)) /\
  (forall fn, total (if_some this fn)) /\
  (forall fn, total (if_none this fn)) /\
  total (isNone this) /\ total (isSome this) /\
  total (operator_eq this o) /\
  total (QNone this) /\
  (forall v, total (QSome this v)) /\
  (forall v, total (QSome_move this v)) /\
  total (QOption_move this o) /\ total (QOption_ref this o) /\
  total (assign_move this o) /\ total (assign_ref this o).
Proof.
  split; [ | split ].
  - intros [h tr] E. unfold Empty, Occupied. cbn [heap]. split.
    + intros He. destruct (h this) as [a v] eqn:Hq. cbn [available] in He.
      subst a. step. reflexivity.
    + intros v Hq. eexists. step. reflexivity.
  - intros [h tr] E text. unfold Empty, Occupied. cbn [heap]. split.
    + intros He. destruct (h this) as [a v] eqn:Hq. cbn [available] in He.
      subst a. step. reflexivity.
    + intros v Hq. eexists. step. reflexivity.
  - repeat match goal with |- _ /\ _ => split end.
    all: try apply transfers_total.
    all: try apply operator_eq_total.
    all: intros; intros [h tr].
    all: case_flag h this; do 2 eexists; step; reflexivity.
Qed.

(** ** The non-consuming combinators *)

Lemma bind_returned {A B : Type} (c : M A) (k : A -> M B) (m m1 : machine) (a : A) :
  c m = (Returned a, m1) -> bind c k m = k a m1.
Proof. intros Hc. unfold bind. now rewrite Hc. Qed.

Lemma if_some_Occupied (m : machine) (this : loc) (fn : Type_ -> Type_) (v : Type_) :
  Occupied m this v ->
  if_some this fn m =
    (Returned this,
     mkMachine (upd (heap m) this (mkQOption true (fn v)))
               (trace m ++ [StorageRead this true; InvokeSome v])).
Proof.
  destruct m as [h tr]. unfold Occupied. cbn [heap trace]. intros Hq.
  step. now rewrite <- app_assoc.
Qed.

Lemma if_some_Empty (m : machine) (this : loc) (fn : Type_ -> Type_) :
  Empty m this -> if_some this fn m = (Returned this, m).
Proof.
  destruct m as [h tr]. unfold Empty. cbn [heap]. intros He.
  destruct (h this) as [a v] eqn:Hq. cbn [available] in He. subst a.
  step. reflexivity.
Qed.

Lemma if_none_Occupied (m : machine) (this : loc) (fn : unit -> unit) (v : Type_) :
  Occupied m this v -> if_none this fn m = (Returned this, m).
Proof.
  destruct m as [h tr]. unfold Occupied. cbn [heap]. intros Hq.
  step. reflexivity.
Qed.

Lemma if_none_Empty (m : machine) (this : loc) (fn : unit -> unit) :
  Empty m this ->
  if_none this fn m = (Returned this, mkMachine (heap m) (trace m ++ [InvokeNone])).
Proof.
  destruct m as [h tr]. unfold Empty. cbn [heap trace]. intros He.
  destruct (h this) as [a v] eqn:Hq. cbn [available] in He. subst a.
  step. reflexivity.
Qed.

Lemma read_only_apply_refs (cs : list combinator) (v : Type_) :
  read_only cs -> apply_refs cs v = v.
Proof.
  revert v. induction cs as [ | [fn | fn] cs IH]; intros v Hro; cbn in *.
  - reflexivity.
  - destruct Hro as [Hfn Hro]. rewrite Hfn. now apply IH.
  - now apply IH.
Qed.

Lemma chain_Occupied (cs : list combinator) (m : machine) (this : loc) (v : Type_) :
  Occupied m this v ->
  exists m',
    chain this cs m = (Returned this, m') /\
    Occupied m' this (apply_refs cs v) /\
    (forall l, l <> this -> heap m' l = heap m l) /\
    invocations (trace m') = invocations (trace m) ++ some_calls cs v.
Proof.
  revert m v. induction cs as [ | [fn | fn] cs IH]; intros m v Hocc; cbn [chain apply_refs some_calls].
  - exists m. rewrite app_nil_r. repeat split; auto.
  - destruct (IH (mkMachine (upd (heap m) this (mkQOption true (fn v)))
                            (trace m ++ [StorageRead this true; InvokeSome v]))
                 (fn v)) as [m' [Hrun [Hocc' [Hframe Hcalls]]]].
    { unfold Occupied. cbn [heap]. apply upd_same. }
    exists m'. split; [ | split; [ exact Hocc' | split ] ].
    + erewrite bind_returned; [ exact Hrun | exact (if_some_Occupied fn Hocc) ].
    + intros l Hl. rewrite (Hframe l Hl). cbn [heap]. now apply upd_other.
    + rewrite Hcalls. cbn [trace]. rewrite invocations_app.
      cbn [invocations filter is_invocation]. now rewrite <- app_assoc.
  - destruct (IH m v Hocc) as [m' [Hrun Hrest]].
    exists m'. split; [ | exact Hrest ].
    erewrite bind_returned; [ exact Hrun | exact (if_none_Occupied fn Hocc) ].
Qed.

Lemma chain_Empty (cs : list combinator) (m : machine) (this : loc) :
  Empty m this ->
  exists m',
    chain this cs m = (Returned this, m') /\
    heap m' = heap m /\
    invocations (trace m') = invocations (trace m) ++ none_calls cs.
Proof.
  revert m. induction cs as [ | [fn | fn] cs IH]; intros m Hemp; cbn [chain none_calls].
  - exists m. rewrite app_nil_r. repeat split; auto.
  - destruct (IH m Hemp) as [m' [Hrun Hrest]].
    exists m'. split; [ | exact Hrest ].
    erewrite bind_returned; [ exact Hrun | exact (if_some_Empty fn Hemp) ].
  - destruct (IH (mkMachine (heap m) (trace m ++ [InvokeNone]))) as [m' [Hrun [Hheap Hcalls]]].
    { exact Hemp. }
    exists m'. split; [ | split ].
    + erewrite bind_returned; [ exact Hrun | exact (if_none_Empty fn Hemp) ].
    + exact Hheap.
    + rewrite Hcalls. cbn [trace]. rewrite invocations_app.
      cbn [invocations filter is_invocation]. now rewrite <- app_assoc.
Qed.

Lemma some_calls_no_none (cs : list combinator) (v : Type_) :
  ~ In InvokeNone (some_calls cs v).
Proof.
  revert v. induction cs as [ | [fn | fn] cs IH]; intros v; cbn; auto.
  intros [Hf | Hin]; [ discriminate | exact (IH _ Hin) ].
Qed.

Lemma none_calls_no_some (cs : list combinator) (v : Type_) :
  ~ In (InvokeSome v) (none_calls cs).
Proof.
  induction cs as [ | [fn | fn] cs IH]; cbn; auto.
  intros [Hf | Hin]; [ discriminate | exact (IH Hin) ].
Qed.

Lemma unwrap_Occupied (m : machine) (this : loc) (E : string) (v : Type_) :
  Occupied m this v ->
  exists m', unwrap E this m = (Returned v, m') /\ Empty m' this.
Proof.
  destruct m as [h tr]. unfold Occupied. cbn [heap]. intros Hq.
  eexists. split; [ step; reflexivity | step; reflexivity ].
Qed.

(** C7, as the code has it.  [if_some(fn)] calls [fn] on a reference to the
    contained value only when the container is Occupied, [if_none(fn)] calls
    [fn] only when it is Empty; both return the container itself and leave the
    flag as it is, so a chain of them keeps an Occupied container Occupied and
    leaves an Empty one untouched.  The reference handed to [fn] is not
    [const]: after a chain on a container holding [v], [unwrap()] returns the
    value as the callables left it ([apply_refs cs v]), and that is [v]
    whenever the callables only read what they are handed. *)
Theorem chain_keeps_container (cs : list combinator) (m : machine) (this : loc) (E : string) :
  (forall v, Occupied m this v ->
     exists m' m'',
       chain this cs m = (Returned this, m') /\
       Occupied m' this (apply_refs cs v) /\
       (forall l, l <> this -> heap m' l = heap m l) /\
       invocations (trace m') = invocations (trace m) ++ some_calls cs v /\
       ~ In InvokeNone (some_calls cs v) /\
       unwrap E this m' = (Returned (apply_refs cs v), m'') /\
       (read_only cs -> apply_refs cs v = v)) /\
  (Empty m this ->
     exists m',
       chain this cs m = (Returned this, m') /\
       heap m' = heap m /\
       invocations (trace m') = invocations (trace m) ++ none_calls cs /\
       (forall v, ~ In (InvokeSome v) (none_calls cs))).
Proof.
  split.
  - intros v Hocc.
    destruct (chain_Occupied cs Hocc) as [m' [Hrun [Hocc' [Hframe Hcalls]]]].
    destruct (unwrap_Occupied E Hocc') as [m'' [Hun _]].
    exists m', m''. repeat split; auto.
    + apply some_calls_no_none.
    + apply read_only_apply_refs.
  - intros Hemp.
    destruct (chain_Empty cs Hemp) as [m' [Hrun [Hheap Hcalls]]].
    exists m'. repeat split; auto.
    intros v. apply none_calls_no_some.
Qed.

(** ** Accesses to the storage *)




(** ** Further properties of the member functions *)

(** X1. Move-assigning a container to itself, [c = std::move(c)], leaves every
    object as it was: the value is taken out by [unwrap()] and assigned
    back. *)
Theorem self_move_assignment_keeps_container (m : machine) (this : loc) :
  exists m',
    assign_move this this m = (Returned this, m') /\
    (forall l, heap m' l = heap m l).
Proof.
  destruct m as [h tr].
  case_flag h this; eexists; (split; [ step; reflexivity | ]);
    intros l; cbn [heap];
    (same_or_not l this; [ simpl_upd; congruence | simpl_upd; reflexivity ]).
Qed.

(** X4. On an Occupied container the four value-returning extractions are the
    same operation: [expect], [unwrap_or] and [unwrap_def] return the value
    and leave the machine exactly as [unwrap] does, whatever message, callable
    or default they are given. *)
Theorem extractions_agree_on_Occupied (m : machine) (this : loc) (v : Type_)
    (E : string) (text : string) (none_fn : unit -> Type_) (def_value : Type_) :
  Occupied m this v ->
  fst (unwrap E this m) = Returned v /\
  expect E this text m = unwrap E this m /\
  unwrap_or this none_fn m = unwrap E this m /\
  unwrap_def this def_value m = unwrap E this m.
Proof.
  destruct m as [h tr]. unfold Occupied. cbn [heap]. intros Hq.
  repeat split; step; reflexivity.
Qed.

(** X5. [match] with the identity for [some_fn] returns what [unwrap_or]
    returns with the same [none_fn], in every state, and both leave the
    container Empty. *)
Theorem match_identity_returns_as_unwrap_or (m : machine) (this : loc)
    (none_fn : unit -> Type_) :
  fst (match_ this (fun x => x) none_fn m) = fst (unwrap_or this none_fn m) /\
  Empty (snd (match_ this (fun x => x) none_fn m)) this /\
  Empty (snd (unwrap_or this none_fn m)) this.
Proof.
  destruct m as [h tr].
  case_flag h this; repeat split; step; reflexivity.
Qed.

(** X6. A value is handed out at most once: whatever the state, a second
    [unwrap] after an [unwrap], an [unwrap_or], an [unwrap_def] or a [match]
    throws, and a second [unwrap_or] returns the result of its own
    callable. *)
Theorem value_is_yielded_at_most_once (m : machine) (this : loc) (E E' : string)
    (none_fn none_fn' : unit -> Type_) (def_value : Type_)
    (Res : Type) (some_fn : Type_ -> Res) (none_res : unit -> Res) :
  (exists e m', (unwrap E this ;; unwrap E' this) m = (Thrown e, m')) /\
  (exists m', (unwrap_or this none_fn ;; unwrap E this) m
              = (Thrown (Exception E "Option is None value"), m')) /\
  (exists m', (unwrap_def this def_value ;; unwrap E this) m
              = (Thrown (Exception E "Option is None value"), m')) /\
  (exists m', (match_ this some_fn none_res ;; unwrap E this) m
              = (Thrown (Exception E "Option is None value"), m')) /\
  (exists m', (unwrap_or this none_fn ;; unwrap_or this none_fn') m
              = (Returned (none_fn' tt), m')).
Proof.
  destruct m as [h tr].
  repeat split; case_flag h this; repeat eexists; step; reflexivity.
Qed.

(** X12. The idiom [c.if_some(f).if_none(g)] runs exactly one of the two
    callables, once, in either order of the two calls: [f] on the value when
    the container is Occupied, [g] when it is Empty; the flag is as before. *)
Theorem if_some_if_none_runs_exactly_one (m : machine) (this : loc)
    (fn : Type_ -> Type_) (gn : unit -> unit) :
  (exists m',
      (c <- if_some this fn ;; if_none c gn) m = (Returned this, m') /\
      available (heap m' this) = available (heap m this) /\
      invocations (trace m')
      = invocations (trace m) ++
        (if available (heap m this) then [InvokeSome (value (heap m this))]
         else [InvokeNone])) /\
  (exists m',
      (c <- if_none this gn ;; if_some c fn) m = (Returned this, m') /\
      available (heap m' this) = available (heap m this) /\
      invocations (trace m')
      = invocations (trace m) ++
        (if available (heap m this) then [InvokeSome (value (heap m this))]
         else [InvokeNone])).
Proof.
  destruct m as [h tr]. cbn [heap trace].
  split; case_flag h this; eexists; (split; [ step; reflexivity | ]);
    step; (split; [ reflexivity | calls ]).
Qed.

End Model.

(** * Instances on [int]-like values

    The statements above hold for every [Type]; the ones below run the
    operations on [Z] values, with a move that leaves the source value in
    place, as for a built-in type. *)

Arguments StorageRead {Type_} l flag.
Arguments StorageWrite {Type_} l flag.
Arguments InvokeSome {Type_} v.
Arguments InvokeNone {Type_}.

Notation "x <- c ;; k" := (bind c (fun x => k))
  (at level 61, c at next level, right associativity).
Notation "c ;; k" := (bind c (fun _ => k))
  (at level 61, right associativity).

(** P1 of the spec on a sample value. *)
Example Some_isSome (m : machine Z) :
  fst ((QSome 0 7%Z ;; s <- isSome 0 ;; n <- isNone 0 ;; ret (s, n)) m)
  = Returned (true, false).
Proof. destruct m as [h tr]. vm_compute. reflexivity. Qed.

(** P2 of the spec. *)
Example None_unwrap_throws (m : machine Z) :
  fst ((QNone 0 ;; n <- isNone 0 ;;
        v <- unwrap (fun x => x) default_E 0 ;; ret (n, v)) m)
  = Thrown (Exception "std::logic_error" "Option is None value").
Proof. destruct m as [h tr]. vm_compute. reflexivity. Qed.

(** The scenario of the spec, with a callable that only reads. *)
Example chain_then_unwrap (m : machine Z) :
  fst ((QSome 0 7%Z ;;
        c <- if_some 0 (fun x => x) ;;
        r <- if_none c (fun u => u) ;;
        unwrap (fun x => x) default_E r) m)
  = Returned 7%Z.
Proof. destruct m as [h tr]. vm_compute. reflexivity. Qed.

(** [b = a] with [a] holding 5 and an Empty [b] whose storage holds 0: [b]
    ends Occupied with 0. *)
Lemma copy_assignment_transfers_no_value_witness :
  0 <> 1 /\
  Occupied (mkMachine (fun l => if Nat.eqb l 1 then mkQOption true 5%Z
                                else mkQOption false 0%Z) []) 1 5%Z /\
  exists m',
    assign_ref 0 1
      (mkMachine (fun l => if Nat.eqb l 1 then mkQOption true 5%Z
                           else mkQOption false 0%Z) [])
    = (Returned 0, m') /\
    Occupied m' 0 0%Z /\
    Empty m' 1 /\
    trace m' = [].
Proof.
  split; [ discriminate | ]. split; [ reflexivity | ].
  apply (@copy_assignment_transfers_no_value Z
           (mkMachine (fun l => if Nat.eqb l 1 then mkQOption true 5%Z
                                else mkQOption false 0%Z) []) 0 1 5%Z).
  - discriminate.
  - reflexivity.
Defined.

(** An Occupied destination at address 0 assigned from an Empty source at
    address 1. *)
Lemma assign_from_Empty_discards_witness :
  Empty (mkMachine (fun l => if Nat.eqb l 0 then mkQOption true 9%Z
                             else mkQOption false 0%Z) []) 1 /\
  exists m',
    assign_ref 0 1
      (mkMachine (fun l => if Nat.eqb l 0 then mkQOption true 9%Z
                           else mkQOption false 0%Z) [])
    = (Returned 0, m') /\
    Empty m' 0 /\ Empty m' 1 /\
    trace m' = [] /\
    value (heap m' 0) = 9%Z /\
    unwrap (fun x : Z => x) default_E 0 m'
    = (Thrown (Exception default_E "Option is None value"), m').
Proof.
  split; [ reflexivity | ].
  apply (assign_from_Empty_discards (fun x : Z => x)). reflexivity.
Defined.

(** [Some(Type &&)] swaps the argument with the storage of the new object: the
    storage is read before anything was written to it, and what it held ends
    in the caller's variable. *)
Remark Some_move_reads_fresh_storage (h : loc -> QOption Z) :
  events_of (QSome_move (fun x => x) 0 7%Z) h
  = [StorageRead 0 false; StorageWrite 0 false] /\
  fst (QSome_move (fun x => x) 0 7%Z (mkMachine h [])) = Returned (value (h 0)).
Proof. split; vm_compute; reflexivity. Qed.

(** C7 as stated fails: a callable given to [if_some] may write through the
    reference it receives; after [Some(3).if_some(fn)] with an [fn] that
    stores 0, [unwrap()] returns 0 and not 3. *)
Lemma if_some_callable_can_change_the_value :
  fst ((QSome 0 3%Z ;;
        r <- if_some 0 (fun _ => 0%Z) ;;
        unwrap (fun x => x) default_E r)
         (mkMachine (fun _ => mkQOption false 0%Z) []))
  = Returned 0%Z /\
  0%Z <> 3%Z.
Proof. split; [ vm_compute; reflexivity | discriminate ]. Qed.


(** The extractions on a container holding 5. *)
Lemma extractions_agree_on_Occupied_witness :
  Occupied (mkMachine (fun _ => mkQOption true 5%Z) []) 0 5%Z /\
  fst (unwrap (fun x : Z => x) default_E 0
         (mkMachine (fun _ => mkQOption true 5%Z) [])) = Returned 5%Z /\
  unwrap_or (fun x : Z => x) 0 (fun _ => 9%Z)
    (mkMachine (fun _ => mkQOption true 5%Z) [])
  = unwrap (fun x : Z => x) default_E 0
      (mkMachine (fun _ => mkQOption true 5%Z) []).
Proof.
  split; [ reflexivity | ].
  pose proof (@extractions_agree_on_Occupied Z (fun x : Z => x)
                (mkMachine (fun _ => mkQOption true 5%Z) []) 0 5%Z
                default_E "text" (fun _ => 9%Z) 1%Z eq_refl) as H.
  split; [ exact (proj1 H) | exact (proj1 (proj2 (proj2 H))) ].
Defined.

(** * The object as bytes

    The store above hands every container a storage cell of its own.  In the
    class the cell is the member [value], and line 35 gives it the type
    [std::aligned_storage<sizeof (Type), alignof(Type)>] without [::type]: an
    empty class, one byte.  For [QOption<int>] the object is two bytes, the
    flag at offset 0 and [value] at offset 1, and an [int] reached through
    [__ptr_v()] covers offsets 1 to 4.  This module writes the constructor
    from a [Type &&] and [unwrap] on a byte-addressed memory, for [Type = int]
    with four-byte little-endian two's complement [int] and a one-byte
    [bool]. *)
Module Layout.

Local Open Scope Z_scope.

Definition addr := Z.

(** One byte at every address. *)
Definition memory := addr -> Z.

Definition sizeof_int : Z := 4.

(** [sizeof(QOption<int>)]: [bool available] and the empty [value]. *)
Definition sizeof_QOption : Z := 2.

Definition offset_available : Z := 0.

Definition offset_value : Z := 1.

(** [Type * __ptr_v() { return reinterpret_cast<Type*>(&value); }] *)
Definition ptr_v (this : addr) : addr := this + offset_value.

Definition write (m : memory) (a : addr) (b : Z) : memory :=
  fun a' => if Z.eqb a' a then b else m a'.

Definition load_int (m : memory) (a : addr) : Z :=
  let u := m a + 256 * m (a + 1) + 65536 * m (a + 2) + 16777216 * m (a + 3) in
  if u <? 2147483648 then u else u - 4294967296.

Definition store_int (m : memory) (a : addr) (v : Z) : memory :=
  write (write (write (write m a (v mod 256))
                  (a + 1) (v / 256 mod 256))
           (a + 2) (v / 65536 mod 256))
    (a + 3) (v / 16777216 mod 256).

Definition set_available (m : memory) (this : addr) (b : bool) : memory :=
  write m (this + offset_available) (if b then 1 else 0).

(** [bool isSome() const { return available; }] *)
Definition isSome (m : memory) (this : addr) : bool :=
  negb (m (this + offset_available) =? 0).

(** [bool isNone() const { return !available; }] *)
Definition isNone (m : memory) (this : addr) : bool :=
  negb (isSome m this).

(** [std::swap(a, b)] on two [int] objects given by address:
    [int tmp = a; a = b; b = tmp;]. *)
Definition swap_int (m : memory) (a b : addr) : memory :=
  let tmp := load_int m a in
  let m1 := store_int m a (load_int m b) in
  store_int m1 b tmp.

(** [QOption(Type && t) noexcept], the argument at address [t]. *)
Definition QOption_move_value (m : memory) (this t : addr) : memory :=
  let m0 := set_available m this false in
  let m1 := swap_int m0 (ptr_v this) t in
  set_available m1 this true.

(** [Type unwrap()] with the default exception type. *)
Definition unwrap (m : memory) (this : addr) : outcome Z * memory :=
  if isNone m this
  then (Thrown (Exception default_E "Option is None value"), m)
  else
    let m1 := set_available m this false in
    (Returned (load_int m1 (ptr_v this)), m1).

(** The bytes of an [int] argument at [t] lie apart from the five bytes the
    container at [this] uses. *)
Definition apart (this t : addr) : Prop :=
  t + sizeof_int <= this \/ this + offset_value + sizeof_int <= t.

(** Every byte of the memory is a byte. *)
Definition bytes (m : memory) : Prop :=
  forall a, 0 <= m a < 256.

Lemma write_same (m : memory) (a : addr) (b : Z) : write m a b a = b.
Proof. unfold write. now rewrite Z.eqb_refl. Qed.

Lemma write_other (m : memory) (a a' : addr) (b : Z) :
  a' <> a -> write m a b a' = m a'.
Proof.
  intros Hne. unfold write.
  destruct (Z.eqb_spec a' a); [ contradiction | reflexivity ].
Qed.

Ltac writes :=
  repeat (rewrite write_same || (rewrite write_other by lia)).

Lemma load_int_range (m : memory) (a : addr) :
  bytes m -> -2147483648 <= load_int m a < 2147483648.
Proof.
  intros Hb. unfold load_int.
  pose proof (Hb a). pose proof (Hb (a + 1)).
  pose proof (Hb (a + 2)). pose proof (Hb (a + 3)).
  cbv zeta. destruct (Z.ltb_spec
    (m a + 256 * m (a + 1) + 65536 * m (a + 2) + 16777216 * m (a + 3))
    2147483648); lia.
Qed.

Lemma load_store_int (m : memory) (a : addr) (v : Z) :
  -2147483648 <= v < 2147483648 -> load_int (store_int m a v) a = v.
Proof.
  intros Hv. unfold load_int, store_int. writes. cbv zeta.
  destruct (Z.ltb_spec
    (v mod 256 + 256 * (v / 256 mod 256) + 65536 * (v / 65536 mod 256)
     + 16777216 * (v / 16777216 mod 256)) 2147483648) as [Hlt | Hge];
    Z.div_mod_to_equations; lia.
Qed.

Lemma load_int_write_other (m : memory) (a b : addr) (x : Z) :
  b < a \/ a + 4 <= b -> load_int (write m b x) a = load_int m a.
Proof. intros Hb. unfold load_int. writes. reflexivity. Qed.

Lemma load_int_store_other (m : memory) (a b : addr) (x : Z) :
  b + 4 <= a \/ a + 4 <= b -> load_int (store_int m b x) a = load_int m a.
Proof. intros Hb. unfold load_int, store_int. writes. reflexivity. Qed.

(** With the argument apart from the container, [Some(std::move(t))] followed
    by [unwrap()] yields the value of the argument. *)
Lemma unwrap_Some_apart (m : memory) (this t : addr) :
  bytes m -> apart this t ->
  fst (unwrap (QOption_move_value m this t) this) = Returned (load_int m t).
Proof.
  intros Hb Hap. unfold apart, sizeof_int, offset_value in Hap.
  unfold unwrap, isNone, isSome, QOption_move_value, set_available, swap_int,
    ptr_v, offset_available, offset_value.
  rewrite Z.add_0_r. rewrite write_same. cbn [Z.eqb negb fst].
  rewrite load_int_write_other by lia.
  rewrite load_int_write_other by lia.
  rewrite load_int_store_other by lia.
  rewrite load_store_int.
  - rewrite load_int_write_other by lia. reflexivity.
  - rewrite load_int_write_other by lia. apply load_int_range. exact Hb.
Qed.

(** C1. The code against the claim: [QOption<int>::Some(4)] takes the
    [Type &&] overload; with the container at address 0 and the temporary
    [int] right behind the two-byte object, the storage that [std::swap]
    works on (bytes 1 to 4) overlaps the argument (bytes 2 to 5), and
    [unwrap()] returns 262148, that is 0x00040004, not 4.  With the temporary
    three bytes further, clear of the storage, it returns 4. *)
Theorem Some_of_adjacent_rvalue_is_not_its_value :
  load_int (fun a => if a =? 2 then 4 else 0) (0 + sizeof_QOption) = 4 /\
  fst (unwrap (QOption_move_value (fun a => if a =? 2 then 4 else 0)
                 0 (0 + sizeof_QOption)) 0)
  = Returned 262148 /\
  load_int (fun a => if a =? 5 then 4 else 0) 5 = 4 /\
  fst (unwrap (QOption_move_value (fun a => if a =? 5 then 4 else 0) 0 5) 0)
  = Returned 4.
Proof. repeat split; vm_compute; reflexivity. Qed.

End Layout.
